(** * skimage.draw.draw: ellipse, circle, polygon_perimeter, set_color

    A shallow embedding of [skimage/draw/draw.py].

    Numbers.  Python doubles are idealised as exact rationals: geometry
    (centres, radii, vertices) lives in [Q], where only comparisons and
    roundings to [Z] are observed; pixel values, colours and alphas live in
    [Qc], whose equality is Leibniz equality.  The only non-finite doubles
    the code can produce from finite inputs come from dividing by a zero
    radius; they are kept apart as [None] (see [fdiv]).  Integer arrays are
    lists of [Z], coordinate sets are pairs of parallel lists as in the
    source.  Rounding errors of double arithmetic and the cast of a stored
    value to the dtype of the image are outside the model. *)

From Stdlib Require Import ZArith QArith Qround Qminmax Qcanon List Sorted Bool Lia Lqa.
Import ListNotations.

Local Open Scope Z_scope.

(** ** Small numpy vocabulary *)

Module Np.

(** [np.arange(0, n)] for an integer-valued stop: [0, 1, ..., n-1],
    empty when [n <= 0]. *)
Definition arange (n : Z) : list Z := map Z.of_nat (seq 0 (Z.to_nat n)).

(** Strict comparison of rationals, as a boolean. *)
Definition Qlt_bool (x y : Q) : bool :=
  match Qcompare x y with Lt => true | _ => false end.

(** A double that may be non-finite: [None] stands for [inf] and [nan]. *)
Definition float := option Q.

(** [a / b] on doubles: a zero divisor gives [inf] or [nan]. *)
Definition fdiv (a b : Q) : float :=
  if Qeq_bool b 0 then None else Some (a / b)%Q.

(** [x ** 2]: the square of [inf] is [inf], of [nan] is [nan]. *)
Definition fsqr (x : float) : float := option_map (fun v => v ^ 2)%Q x.

(** [x + y], for [x] and [y] squares (never [-inf]): non-finite as soon as
    one argument is. *)
Definition fadd (x y : float) : float :=
  match x, y with
  | Some a, Some b => Some (a + b)%Q
  | _, _ => None
  end.

(** [x < 1]: false on [inf] and on [nan]. *)
Definition flt1 (x : float) : bool :=
  match x with
  | Some v => Qlt_bool v 1
  | None => false
  end.

(** Column indices of the true entries of one row, ascending. *)
Fixpoint nonzero_row (j : Z) (row : list bool) : list Z :=
  match row with
  | [] => []
  | b :: row' => (if b then [j] else []) ++ nonzero_row (j + 1) row'
  end.

(** Index pairs of the true entries of a boolean matrix, in row-major
    order. *)
Fixpoint nonzero_from (i : Z) (m : list (list bool)) : list (Z * Z) :=
  match m with
  | [] => []
  | row :: m' => map (pair i) (nonzero_row 0 row) ++ nonzero_from (i + 1) m'
  end.

(** [np.nonzero] of a 2-D boolean array: the row indices and the column
    indices of its true entries, as two parallel arrays. *)
Definition nonzero (m : list (list bool)) : list Z * list Z :=
  split (nonzero_from 0 m).

End Np.

(** The coordinate set denoted by two parallel arrays. *)
Definition coords (rc : list Z * list Z) : list (Z * Z) :=
  combine (fst rc) (snd rc).

(** ** Ellipse and circle *)

Definition _ellipse_in_shape (shape : Z * Z) (center radiuses : Q * Q)
  : list Z * list Z :=
  let r_lim := Np.arange (fst shape) in
  let c_lim := Np.arange (snd shape) in
  let '(r, c) := center in
  let '(ry, rx) := radiuses in
  let distances :=
    map (fun i =>
      map (fun j =>
        Np.fadd (Np.fsqr (Np.fdiv (inject_Z i - r) ry))
                (Np.fsqr (Np.fdiv (inject_Z j - c) rx))) c_lim) r_lim in
  Np.nonzero (map (map Np.flt1) distances).

Definition ellipse (r c yradius xradius : Q) (shape : option (Z * Z))
  : list Z * list Z :=
  let center := (r, c) in
  let radiuses := (yradius, xradius) in
  let upper_left := (Qceiling (r - yradius), Qceiling (c - xradius)) in
  let lower_right := (Qfloor (r + yradius), Qfloor (c + xradius)) in
  let '(upper_left, lower_right) :=
    match shape with
    | Some sh =>
        ((Z.max (fst upper_left) 0, Z.max (snd upper_left) 0),
         (Z.min (fst lower_right) (fst sh - 1),
          Z.min (snd lower_right) (snd sh - 1)))
    | None => (upper_left, lower_right)
    end in
  let shifted_center :=
    (r - inject_Z (fst upper_left), c - inject_Z (snd upper_left))%Q in
  let bounding_shape :=
    (fst lower_right - fst upper_left + 1,
     snd lower_right - snd upper_left + 1) in
  let '(rr, cc) := _ellipse_in_shape bounding_shape shifted_center radiuses in
  (map (fun i => i + fst upper_left) rr, map (fun j => j + snd upper_left) cc).

Definition circle (r c radius : Q) (shape : option (Z * Z)) : list Z * list Z :=
  ellipse r c radius radius shape.

(** The ellipse predicate of the contract, on an integer point. *)
Definition inside_ellipse (r c yradius xradius : Q) (row col : Z) : Prop :=
  (((inject_Z row - r) / yradius) ^ 2 + ((inject_Z col - c) / xradius) ^ 2 < 1)%Q.

(** ** Errors and the in-shape coordinate filter *)

(** The exceptions the module can raise. *)
Inductive error : Type :=
| MustSpecifyClippingShape  (* ValueError("Must specify clipping shape") *)
| ZeroSizeReduction         (* ValueError of np.min / np.max on an empty array *)
| IndexOutOfBounds          (* IndexError of cx[i] past the end of cx *)
| ColorShapeMismatch.       (* ValueError("Color shape ... must match ...") *)

(** [0 <= r < shape[0]] and [0 <= c < shape[1]]. *)
Definition inside_image (shape : Z * Z) (r c : Z) : bool :=
  (0 <=? r) && (r <? fst shape) && (0 <=? c) && (c <? snd shape).

(** Modelled from the spec: the in-shape coordinate filter
    [_coords_inside_image] of [skimage/draw/_draw], which draw.py imports and
    whose source is not at hand.  Given parallel row and column sequences and
    a shape it keeps the entries whose (row, col) lie within
    [[0, shape[0]) x [0, shape[1])], in their relative order.  Sequences that
    are not parallel are outside the interface; the model reads them up to
    the shortest. *)
Definition _coords_inside_image (rr cc : list Z) (shape : Z * Z)
  : list Z * list Z :=
  let kept := filter (fun p => inside_image shape (fst p) (snd p))
                     (combine rr cc) in
  (map fst kept, map snd kept).

(** Modelled from the spec: the same filter called with [val], a parallel
    value sequence that is filtered in lockstep with the coordinates. *)
Definition _coords_inside_image_val {A : Type} (rr cc : list Z)
  (shape : Z * Z) (val : list A) : list Z * list Z * list A :=
  let kept := filter (fun p => inside_image shape (fst (fst p)) (snd (fst p)))
                     (combine (combine rr cc) val) in
  (map (fun p => fst (fst p)) kept, map (fun p => snd (fst p)) kept,
   map snd kept).

(** ** Polygon perimeter *)

(** What [polygon_perimeter] asks of its collaborators, in call order. *)
Inductive event : Type :=
| Clipped (box : Q * Q * Q * Q)      (* polygon_clip(cy, cx, *clip_box) *)
| Rounded                            (* np.round(...).astype(int) *)
| Traced (r0 c0 r1 c1 : Z).          (* line(r0, c0, r1, c1) *)

(** Computations that log their external calls and may raise. *)
Module Run.

Definition M (A : Type) : Type := list event -> list event * (error + A).

Definition ret {A} (a : A) : M A := fun tr => (tr, inr a).

Definition raise {A} (e : error) : M A := fun tr => (tr, inl e).

Definition emit (ev : event) : M unit := fun tr => (tr ++ [ev], inr tt).

Definition bind {A B} (m : M A) (k : A -> M B) : M B :=
  fun tr =>
    match m tr with
    | (tr', inr a) => k a tr'
    | (tr', inl e) => (tr', inl e)
    end.

(** The log and the outcome of a computation started on an empty log. *)
Definition run {A} (m : M A) : list event * (error + A) := m [].

End Run.

Notation "x <- m ;; k" := (Run.bind m (fun x => k))
  (at level 61, m at next level, right associativity).
Notation "' p <- m ;; k" := (Run.bind m (fun x => let 'p := x in k))
  (at level 61, p pattern, m at next level, right associativity).

(** [np.min] and [np.max] of a 1-D array; they raise on an empty one. *)
Definition np_min (l : list Q) : Run.M Q :=
  match l with
  | [] => Run.raise ZeroSizeReduction
  | x :: l' => Run.ret (fold_left Qmin l' x)
  end.

Definition np_max (l : list Q) : Run.M Q :=
  match l with
  | [] => Run.raise ZeroSizeReduction
  | x :: l' => Run.ret (fold_left Qmax l' x)
  end.

(** [np.round(x)] followed by [astype(int)]: to the nearest integer, a tie
    going to the even neighbour. *)
Definition np_round (q : Q) : Z :=
  let f := Qfloor q in
  match Qcompare (q - inject_Z f) (1 # 2) with
  | Lt => f
  | Gt => f + 1
  | Eq => if Z.even f then f else f + 1
  end.

(** [a[i]] for [0 <= i]. *)
Definition index (a : list Z) (i : nat) : Run.M Z :=
  match nth_error a i with
  | Some x => Run.ret x
  | None => Run.raise IndexOutOfBounds
  end.

(** Lines 189-190: the clip box of an unclipped call is the bounding box of
    the vertices. *)
Definition bounding_box (cy cx : list Q) : Run.M (Q * Q * Q * Q) :=
  min_y <- np_min cy ;;
  min_x <- np_min cx ;;
  max_y <- np_max cy ;;
  max_x <- np_max cx ;;
  Run.ret (min_y, min_x, max_y, max_x).

Section PolygonPerimeter.

(** The polygon clipper of [skimage/_shared/_geometry] and the line
    rasterizer of [skimage/draw/_draw]: external collaborators. *)
Variable polygon_clip :
  list Q -> list Q -> Q -> Q -> Q -> Q -> list Q * list Q.
Variable line : Z -> Z -> Z -> Z -> list Z * list Z.

(** The loop of lines 200-204: one [line] call per index, the segments
    appended to [rr] and [cc]. *)
Fixpoint trace_segments (cy cx : list Z) (idx : list nat)
  (rr cc : list Z) : Run.M (list Z * list Z) :=
  match idx with
  | [] => Run.ret (rr, cc)
  | i :: idx' =>
      y0 <- index cy i ;;
      x0 <- index cx i ;;
      y1 <- index cy (i + 1) ;;
      x1 <- index cx (i + 1) ;;
      _ <- Run.emit (Traced y0 x0 y1 x1) ;;
      let '(line_r, line_c) := line y0 x0 y1 x1 in
      trace_segments cy cx idx' (rr ++ line_r) (cc ++ line_c)
  end.

Definition polygon_perimeter (cy cx : list Q) (shape : option (Z * Z))
  (clip : bool) : Run.M (list Z * list Z) :=
  clip_box <-
    (if clip then
       match shape with
       | None => Run.raise MustSpecifyClippingShape
       | Some sh =>
           Run.ret (0, 0, inject_Z (fst sh - 1), inject_Z (snd sh - 1))%Q
       end
     else bounding_box cy cx) ;;
  _ <- Run.emit (Clipped clip_box) ;;
  let '(r0, c0, r1, c1) := clip_box in
  let '(cy, cx) := polygon_clip cy cx r0 c0 r1 c1 in
  _ <- Run.emit Rounded ;;
  let cy := map np_round cy in
  _ <- Run.emit Rounded ;;
  let cx := map np_round cx in
  '(rr, cc) <- trace_segments cy cx (seq 0 (length cy - 1)) [] [] ;;
  match shape with
  | None => Run.ret (rr, cc)
  | Some sh => Run.ret (_coords_inside_image rr cc sh)
  end.

End PolygonPerimeter.






(** Modelled from the spec: a line rasterizer meeting the interface, used to
    run [polygon_perimeter] on concrete inputs.  It walks from the start to
    the end pixel, moving each coordinate one step towards its target. *)
Fixpoint walk (fuel : nat) (r c r1 c1 : Z) : list (Z * Z) :=
  match fuel with
  | O => [(r, c)]
  | S fuel' =>
      (r, c) :: walk fuel' (r + Z.sgn (r1 - r)) (c + Z.sgn (c1 - c)) r1 c1
  end.

(** Modelled from the spec: the sample rasterizer as [line] is called, the
    walk taking as many steps as the larger coordinate distance and returned
    as two parallel arrays. *)
Definition walk_line (r0 c0 r1 c1 : Z) : list Z * list Z :=
  split (walk (Z.to_nat (Z.max (Z.abs (r1 - r0)) (Z.abs (c1 - c0))))
              r0 c0 r1 c1).

(** Modelled from the spec: a polygon clipper for polygons that already lie
    inside the clip box, where clipping only has to close the polygon by
    repeating its first vertex. *)
Definition closing_clip (cy cx : list Q) (r0 c0 r1 c1 : Q) : list Q * list Q :=
  (cy ++ firstn 1 cy, cx ++ firstn 1 cx).

(** ** Compositor *)

(** A pixel is its vector of channel values; the buffer of an image is
    row-major and channel-last.  A 2-D image stores one value per pixel, so
    that the view [img[..., np.newaxis]] is the same buffer under the shape
    (M, N, 1), as it is in numpy. *)
Definition pixel : Type := list Qc.
Definition buffer : Type := list (list pixel).

Inductive dims : Type :=
| Dims2 (m n : nat)
| Dims3 (m n d : nat).

Record ndarray : Type := mk_ndarray { shape : dims; data : buffer }.

Definition ndim (a : ndarray) : nat :=
  match shape a with Dims2 _ _ => 2 | Dims3 _ _ _ => 3 end.

(** [img[..., np.newaxis]] of a 2-D array: a view, the buffer is shared. *)
Definition newaxis (a : ndarray) : ndarray :=
  match shape a with
  | Dims2 m n => mk_ndarray (Dims3 m n 1) (data a)
  | Dims3 _ _ _ => a
  end.

(** [shape[-1]] and [(shape[0], shape[1])]. *)
Definition last_dim (s : dims) : nat :=
  match s with Dims2 _ n => n | Dims3 _ _ d => d end.

Definition extent (s : dims) : Z * Z :=
  match s with
  | Dims2 m n => (Z.of_nat m, Z.of_nat n)
  | Dims3 m n _ => (Z.of_nat m, Z.of_nat n)
  end.

(** The channel count of an image, a 2-D image counting as one channel. *)
Definition channels (s : dims) : nat :=
  match s with Dims2 _ _ => 1%nat | Dims3 _ _ d => d end.

(** The invariant of an array: its buffer has the extent its shape says. *)
Definition wf (a : ndarray) : Prop :=
  Z.of_nat (length (data a)) = fst (extent (shape a)) /\
  Forall (fun row =>
            Z.of_nat (length row) = snd (extent (shape a)) /\
            Forall (fun px => length px = channels (shape a)) row) (data a).

Fixpoint set_nth {A : Type} (n : nat) (x : A) (l : list A) : list A :=
  match l, n with
  | [], _ => []
  | _ :: t, O => x :: t
  | h :: t, S n' => h :: set_nth n' x t
  end.

(** [d[r, c]] and [d[r, c] = v] for one in-range coordinate. *)
Definition read (d : buffer) (r c : Z) : pixel :=
  nth (Z.to_nat c) (nth (Z.to_nat r) d []) [].

Definition write (d : buffer) (r c : Z) (v : pixel) : buffer :=
  set_nth (Z.to_nat r) (set_nth (Z.to_nat c) v (nth (Z.to_nat r) d [])) d.

(** A coordinate that indexes the buffer. *)
Definition in_range (d : buffer) (r c : Z) : Prop :=
  0 <= r /\ 0 <= c /\ (Z.to_nat r < length d)%nat /\
  (Z.to_nat c < length (nth (Z.to_nat r) d []))%nat.

(** [d[rr, cc]]: the pixels at the listed coordinates, read at once. *)
Definition gather (d : buffer) (rr cc : list Z) : list pixel :=
  map (fun p => read d (fst p) (snd p)) (combine rr cc).

(** [d[rr, cc] = vals]: the values are stored one coordinate after the
    other, so that of a repeated coordinate the last value stays. *)
Definition store_all (d : buffer) (ws : list (Z * Z * pixel)) : buffer :=
  fold_left (fun d' w => write d' (fst (fst w)) (snd (fst w)) (snd w)) ws d.

Definition scatter (d : buffer) (rr cc : list Z) (vals : list pixel) : buffer :=
  store_all d (combine (combine rr cc) vals).

Fixpoint map2 {A B C : Type} (f : A -> B -> C) (l1 : list A) (l2 : list B)
  : list C :=
  match l1, l2 with
  | a :: l1', b :: l2' => f a b :: map2 f l1' l2'
  | _, _ => []
  end.

(** The [alpha] argument: a scalar or one value per coordinate. *)
Inductive alpha_arg : Type :=
| Scalar (a : Qc)
| PerCoord (a : list Qc).

(** Line 271: a scalar [alpha] becomes [np.ones_like(rr) * alpha]. *)
Definition alpha_values (alpha : alpha_arg) (rr : list Z) : list Qc :=
  match alpha with
  | Scalar a => map (fun _ => (1 * a)%Qc) rr
  | PerCoord l => l
  end.

(** [set_color] mutates the caller's image and returns nothing: the model
    returns the outcome together with the image after the call. *)
Definition set_color (img : ndarray) (coords : list Z * list Z)
  (color : list Qc) (alpha : alpha_arg) : (error + unit) * ndarray :=
  let '(rr, cc) := coords in
  let view := if Nat.eqb (ndim img) 2 then newaxis img else img in
  if negb (Nat.eqb (last_dim (shape view)) (length color)) then
    (inl ColorShapeMismatch, img)
  else
    let alpha := alpha_values alpha rr in
    let '(rr, cc, alpha) :=
      _coords_inside_image_val rr cc (extent (shape view)) alpha in
    let color := map (fun a => map (fun c => (c * a)%Qc) color) alpha in
    let vals :=
      map2 (fun px a => map (fun v => (v * (1 - a))%Qc) px)
           (gather (data view) rr cc) alpha in
    (inr tt,
     mk_ndarray (shape img)
                (scatter (data view) rr cc (map2 (map2 Qcplus) vals color))).

(** The blend of one pixel: [image * (1 - alpha) + color * alpha] per
    channel. *)
Definition blend (px color : pixel) (a : Qc) : pixel :=
  map2 (fun v c => (v * (1 - a) + c * a)%Qc) px color.

(** The surviving (coordinate, alpha) entries of a call, in input order. *)
Definition survivors (img : ndarray) (rc : list Z * list Z) (alpha : alpha_arg)
  : list (Z * Z * Qc) :=
  filter (fun p => inside_image (extent (shape img)) (fst (fst p)) (snd (fst p)))
         (combine (combine (fst rc) (snd rc)) (alpha_values alpha (fst rc))).

(** The stores of a call, entry by entry: each surviving coordinate gets
    the blend of the pixel read from the buffer as it was before the call. *)
Definition blend_entry (d : buffer) (color : pixel) (k : Z * Z * Qc)
  : Z * Z * pixel :=
  (fst k, blend (read d (fst (fst k)) (snd (fst k))) color (snd k)).

(** The coordinates of a call that lie inside an image. *)
Definition addressed (img : ndarray) (rc : list Z * list Z) (row col : Z)
  : Prop :=
  In (row, col) (coords rc) /\
  inside_image (extent (shape img)) row col = true.

(** [img[rr, cc] = 1] on a zero image of [h] rows and [w] columns, for
    coordinates inside the image: the pictures of the docstrings. *)
Definition paint (h w : Z) (pts : list (Z * Z)) : list (list Z) :=
  map (fun i =>
         map (fun j =>
                if existsb (fun p => (fst p =? i) && (snd p =? j)) pts
                then 1 else 0)
             (Np.arange w))
      (Np.arange h).

(** ** Vocabulary of the further properties *)

(** Row-major order of pixels: by row, then by column. *)
Definition lex_lt (p q : Z * Z) : Prop :=
  fst p < fst q \/ (fst p = fst q /\ snd p < snd q).

(** A pixel that an optional shape lets through. *)
Definition within (shape : option (Z * Z)) (row col : Z) : Prop :=
  match shape with
  | None => True
  | Some sh => 0 <= row < fst sh /\ 0 <= col < snd sh
  end.

(** The [line] call of loop index [i] of [polygon_perimeter], and the
    segment it returns. *)
Definition traced_call (cy cx : list Z) (i : nat) : event :=
  Traced (nth i cy 0) (nth i cx 0) (nth (i + 1) cy 0) (nth (i + 1) cx 0).

Definition segment (line : Z -> Z -> Z -> Z -> list Z * list Z)
  (cy cx : list Z) (i : nat) : list Z * list Z :=
  line (nth i cy 0) (nth i cx 0) (nth (i + 1) cy 0) (nth (i + 1) cx 0).



(** * Properties *)

(** ** Lists and indices *)

Lemma coords_split (l : list (Z * Z)) : coords (split l) = l.
Proof.
  unfold coords. pose proof (split_combine l) as H.
  destruct (split l) as [l1 l2]. exact (H l1 l2 eq_refl).
Qed.

Lemma coords_map (f g : Z -> Z) (rr cc : list Z) :
  coords (map f rr, map g cc) =
  map (fun p => (f (fst p), g (snd p))) (coords (rr, cc)).
Proof.
  unfold coords; simpl. revert cc.
  induction rr as [|a rr IH]; intros [|b cc]; simpl; auto.
  now rewrite IH.
Qed.


Lemma In_arange (n i : Z) : In i (Np.arange n) <-> 0 <= i < n.
Proof.
  unfold Np.arange. rewrite in_map_iff. split.
  - intros (k & <- & Hk). apply in_seq in Hk. lia.
  - intros H. exists (Z.to_nat i). split; [lia|]. apply in_seq. lia.
Qed.

Lemma nonzero_row_In (g : Z -> bool) (k a : nat) (j : Z) :
  In j (Np.nonzero_row (Z.of_nat a) (map (fun n => g (Z.of_nat n)) (seq a k)))
  <-> (Z.of_nat a <= j < Z.of_nat (a + k)) /\ g j = true.
Proof.
  revert a. induction k as [|k IH]; intros a; simpl.
  - split; [tauto | lia].
  - rewrite in_app_iff.
    replace (Z.of_nat a + 1) with (Z.of_nat (S a)) by lia.
    rewrite IH. split.
    + intros [H | H].
      * destruct (g (Z.of_nat a)) eqn:E; simpl in H; [|tauto].
        destruct H as [<- | []]. split; [lia | exact E].
      * split; [lia | tauto].
    + intros [Hr Hg]. destruct (Z.eq_dec j (Z.of_nat a)) as [-> | Hne].
      * left. rewrite Hg. now left.
      * right. split; [lia | exact Hg].
Qed.

Lemma nonzero_row_lower (row : list bool) (j0 j : Z) :
  In j (Np.nonzero_row j0 row) -> j0 <= j.
Proof.
  revert j0. induction row as [|b row IH]; intros j0; simpl; [tauto|].
  rewrite in_app_iff. intros [H | H].
  - destruct b; simpl in H; [|tauto]. destruct H as [<- | []]. lia.
  - apply IH in H. lia.
Qed.


Lemma nonzero_from_lower (m : list (list bool)) (i0 i j : Z) :
  In (i, j) (Np.nonzero_from i0 m) -> i0 <= i.
Proof.
  revert i0. induction m as [|row m IH]; intros i0; simpl; [tauto|].
  rewrite in_app_iff, in_map_iff. intros [(x & E & _) | H].
  - inversion E. lia.
  - apply IH in H. lia.
Qed.


Lemma nonzero_from_In (G : Z -> Z -> bool) (m k a : nat) (i j : Z) :
  In (i, j)
     (Np.nonzero_from (Z.of_nat a)
        (map (fun n => map (fun p => G (Z.of_nat n) (Z.of_nat p)) (seq 0 m))
             (seq a k)))
  <-> (Z.of_nat a <= i < Z.of_nat (a + k)) /\ (0 <= j < Z.of_nat m) /\
      G i j = true.
Proof.
  revert a. induction k as [|k IH]; intros a; simpl.
  - split; [tauto | lia].
  - rewrite in_app_iff, in_map_iff.
    replace (Z.of_nat a + 1) with (Z.of_nat (S a)) by lia.
    rewrite IH. split.
    + intros [(x & E & Hx) | H].
      * inversion E; subst.
        apply (nonzero_row_In (G (Z.of_nat a)) m 0) in Hx. simpl in Hx.
        split; [lia | tauto].
      * split; [lia | tauto].
    + intros (Hi & Hj & HG). destruct (Z.eq_dec i (Z.of_nat a)) as [-> | Hne].
      * left. exists j. split; [reflexivity|].
        apply (nonzero_row_In (G (Z.of_nat a)) m 0). simpl. tauto.
      * right. split; [lia | tauto].
Qed.

(** ** The ellipse test and its bounding box *)

Lemma Qlt_bool_iff (x y : Q) : Np.Qlt_bool x y = true <-> (x < y)%Q.
Proof.
  unfold Np.Qlt_bool. rewrite Qlt_alt.
  destruct (x ?= y)%Q; split; congruence.
Qed.

Lemma inside_test (x r ry y c rx : Q) :
  Np.flt1 (Np.fadd (Np.fsqr (Np.fdiv (x - r) ry))
                   (Np.fsqr (Np.fdiv (y - c) rx))) = true
  <-> ~ ry == 0 /\ ~ rx == 0 /\
      (((x - r) / ry) ^ 2 + ((y - c) / rx) ^ 2 < 1)%Q.
Proof.
  unfold Np.fdiv.
  destruct (Qeq_bool ry 0) eqn:Ey; [apply Qeq_bool_iff in Ey | apply Qeq_bool_neq in Ey];
    destruct (Qeq_bool rx 0) eqn:Ex; [apply Qeq_bool_iff in Ex | apply Qeq_bool_neq in Ex | apply Qeq_bool_iff in Ex | apply Qeq_bool_neq in Ex];
    simpl; try (split; [discriminate | tauto]).
  rewrite Qlt_bool_iff. tauto.
Qed.

Lemma matrix_form (G : Z -> Z -> Np.float) (n0 n1 : Z) :
  map (map Np.flt1)
      (map (fun i => map (fun j => G i j) (Np.arange n1)) (Np.arange n0)) =
  map (fun n => map (fun p => Np.flt1 (G (Z.of_nat n) (Z.of_nat p)))
                    (seq 0 (Z.to_nat n1)))
      (seq 0 (Z.to_nat n0)).
Proof.
  unfold Np.arange. rewrite !map_map. apply map_ext. intros n.
  now rewrite !map_map.
Qed.

Lemma shift_center (x u : Z) (r : Q) :
  inject_Z (x - u) - (r - inject_Z u) == inject_Z x - r.
Proof.
  unfold Z.sub. rewrite inject_Z_plus, inject_Z_opp. ring.
Qed.

(** The body of [ellipse] once the box [ul .. lr] is fixed: the integer
    points of the box that pass the test. *)
Lemma raster_In (ul0 ul1 lr0 lr1 : Z) (r c ry rx : Q) (row col : Z) :
  In (row, col)
     (coords
        (let '(rr, cc) :=
           _ellipse_in_shape (lr0 - ul0 + 1, lr1 - ul1 + 1)
             (r - inject_Z ul0, c - inject_Z ul1)%Q (ry, rx) in
         (map (fun i => i + ul0) rr, map (fun j => j + ul1) cc)))
  <-> ul0 <= row <= lr0 /\ ul1 <= col <= lr1 /\
      ~ ry == 0 /\ ~ rx == 0 /\ inside_ellipse r c ry rx row col.
Proof.
  unfold _ellipse_in_shape, Np.nonzero; simpl fst; simpl snd.
  rewrite matrix_form.
  match goal with
  | |- context [split ?l] =>
      pose proof (coords_split l) as Hs; destruct (split l) as [rr cc] eqn:E
  end.
  rewrite coords_map, Hs, in_map_iff. clear Hs E rr cc.
  pose proof (nonzero_from_In
    (fun i j => Np.flt1 (Np.fadd
       (Np.fsqr (Np.fdiv (inject_Z i - (r - inject_Z ul0)) ry))
       (Np.fsqr (Np.fdiv (inject_Z j - (c - inject_Z ul1)) rx))))
    (Z.to_nat (lr1 - ul1 + 1)) (Z.to_nat (lr0 - ul0 + 1)) 0) as HI.
  simpl Z.of_nat in HI. unfold inside_ellipse. split.
  - intros ([i j] & E & Hin). simpl in E. inversion E; subst; clear E.
    apply HI in Hin. destruct Hin as (Hi & Hj & HG).
    apply inside_test in HG. destruct HG as (Hy & Hx & HG).
    rewrite <- (shift_center (i + ul0) ul0 r), <- (shift_center (j + ul1) ul1 c).
    replace (i + ul0 - ul0) with i by lia.
    replace (j + ul1 - ul1) with j by lia.
    repeat split; try lia; assumption.
  - intros (Hi & Hj & Hy & Hx & HG). exists (row - ul0, col - ul1). split.
    + simpl. f_equal; lia.
    + apply HI. split; [lia|]. split; [lia|].
      apply inside_test. rewrite !shift_center. tauto.
Qed.


Lemma raster_length (ul0 ul1 lr0 lr1 : Z) (r c ry rx : Q) :
  let out :=
    (let '(rr, cc) :=
       _ellipse_in_shape (lr0 - ul0 + 1, lr1 - ul1 + 1)
         (r - inject_Z ul0, c - inject_Z ul1)%Q (ry, rx) in
     (map (fun i => i + ul0) rr, map (fun j => j + ul1) cc)) in
  length (fst out) = length (snd out).
Proof.
  unfold _ellipse_in_shape, Np.nonzero; simpl fst; simpl snd.
  match goal with
  | |- context [split ?l] =>
      pose proof (length_fst_split l) as H1; pose proof (length_snd_split l) as H2;
      destruct (split l) as [rr cc] eqn:E
  end.
  simpl in *. rewrite !length_map. congruence.
Qed.

Lemma sq_bound (u t : Q) : (u ^ 2 + t ^ 2 < 1 -> -1 < u /\ u < 1)%Q.
Proof.
  intros H.
  assert (Hu : (u ^ 2 == u * u)%Q) by (simpl; ring).
  assert (Ht : (t ^ 2 == t * t)%Q) by (simpl; ring).
  rewrite Hu, Ht in H. split; nra.
Qed.

Lemma div_bound (x r ry : Q) :
  (0 < ry -> -1 < (x - r) / ry /\ (x - r) / ry < 1 ->
   r - ry < x /\ x < r + ry)%Q.
Proof.
  intros Hry [H1 H2].
  assert (E : (x - r == ((x - r) / ry) * ry)%Q) by (field; lra).
  set (u := ((x - r) / ry)%Q) in *. split; nra.
Qed.

Lemma Qceiling_below (q : Q) (z : Z) : (q < inject_Z z)%Q -> Qceiling q <= z.
Proof.
  intros H. pose proof (Qceiling_lt q) as Hc.
  assert (H0 : (inject_Z (Qceiling q - 1) < inject_Z z)%Q) by lra.
  rewrite <- Zlt_Qlt in H0. lia.
Qed.

Lemma Qfloor_above (q : Q) (z : Z) : (inject_Z z < q)%Q -> z <= Qfloor q.
Proof.
  intros H. pose proof (Qlt_floor q) as Hc.
  assert (H0 : (inject_Z z < inject_Z (Qfloor q + 1))%Q) by lra.
  rewrite <- Zlt_Qlt in H0. lia.
Qed.

(** A box that holds an integer has a non-negative radius. *)
Lemma box_radius_positive (q rad : Q) (z : Z) :
  Qceiling (q - rad) <= z <= Qfloor (q + rad) -> ~ rad == 0 -> (0 < rad)%Q.
Proof.
  intros [H1 H2] Hne.
  pose proof (Qle_ceiling (q - rad)) as Hc.
  pose proof (Qfloor_le (q + rad)) as Hf.
  rewrite Zle_Qle in H1, H2.
  assert (H : (0 <= rad)%Q) by lra.
  apply Qle_lt_or_eq in H. destruct H as [H | H]; [exact H|].
  exfalso. apply Hne. symmetry. exact H.
Qed.

(** With positive radii every point of the ellipse lies in its box. *)
Lemma inside_ellipse_box (r c ry rx : Q) (row col : Z) :
  (0 < ry)%Q -> (0 < rx)%Q -> inside_ellipse r c ry rx row col ->
  Qceiling (r - ry) <= row <= Qfloor (r + ry) /\
  Qceiling (c - rx) <= col <= Qfloor (c + rx).
Proof.
  unfold inside_ellipse. intros Hy Hx H.
  pose proof (sq_bound _ _ H) as Hr.
  rewrite Qplus_comm in H. pose proof (sq_bound _ _ H) as Hc.
  apply (div_bound _ _ _ Hy) in Hr. apply (div_bound _ _ _ Hx) in Hc.
  destruct Hr as [Hr1 Hr2], Hc as [Hc1 Hc2].
  repeat split;
    first [apply Qceiling_below; assumption | apply Qfloor_above; assumption].
Qed.

(** ** Ellipse: the examples of the docstrings *)

Example ellipse_docstring :
  paint 10 10 (coords (ellipse 5 5 3 4 None)) =
  [[0; 0; 0; 0; 0; 0; 0; 0; 0; 0];
   [0; 0; 0; 0; 0; 0; 0; 0; 0; 0];
   [0; 0; 0; 0; 0; 0; 0; 0; 0; 0];
   [0; 0; 0; 1; 1; 1; 1; 1; 0; 0];
   [0; 0; 1; 1; 1; 1; 1; 1; 1; 0];
   [0; 0; 1; 1; 1; 1; 1; 1; 1; 0];
   [0; 0; 1; 1; 1; 1; 1; 1; 1; 0];
   [0; 0; 0; 1; 1; 1; 1; 1; 0; 0];
   [0; 0; 0; 0; 0; 0; 0; 0; 0; 0];
   [0; 0; 0; 0; 0; 0; 0; 0; 0; 0]].
Proof. vm_compute. reflexivity. Qed.

Example circle_docstring :
  paint 10 10 (coords (circle 4 4 5 None)) =
  [[0; 0; 1; 1; 1; 1; 1; 0; 0; 0];
   [0; 1; 1; 1; 1; 1; 1; 1; 0; 0];
   [1; 1; 1; 1; 1; 1; 1; 1; 1; 0];
   [1; 1; 1; 1; 1; 1; 1; 1; 1; 0];
   [1; 1; 1; 1; 1; 1; 1; 1; 1; 0];
   [1; 1; 1; 1; 1; 1; 1; 1; 1; 0];
   [1; 1; 1; 1; 1; 1; 1; 1; 1; 0];
   [0; 1; 1; 1; 1; 1; 1; 1; 0; 0];
   [0; 0; 1; 1; 1; 1; 1; 0; 0; 0];
   [0; 0; 0; 0; 0; 0; 0; 0; 0; 0]].
Proof. vm_compute. reflexivity. Qed.

(** ** Ellipse: the claims *)





(** C4.  [circle] returns what [ellipse] returns with both radii equal to
    the radius: the same two arrays, for every shape argument. *)
Theorem circle_is_ellipse (r c radius : Q) (shape : option (Z * Z)) :
  circle r c radius shape = ellipse r c radius radius shape.
Proof. reflexivity. Qed.

(** C10.  Without a shape the output is not restricted to non-negative
    coordinates: [ellipse(0, 0, 2, 2)] returns the pixel (-1, -1). *)
Theorem ellipse_negative_coordinates :
  exists row col,
    In (row, col) (coords (ellipse 0 0 2 2 None)) /\ (row < 0 \/ col < 0).
Proof.
  exists (-1), (-1). split; [|lia]. vm_compute. tauto.
Qed.

(** ** Polygon perimeter: paths *)







Section PolygonPerimeterFacts.

Variable polygon_clip :
  list Q -> list Q -> Q -> Q -> Q -> Q -> list Q * list Q.
Variable line : Z -> Z -> Z -> Z -> list Z * list Z.

(** The loop can only fail on an index. *)
Lemma trace_segments_error (cy cx : list Z) (idx : list nat) :
  forall rr cc tr e,
    snd (trace_segments line cy cx idx rr cc tr) = inl e ->
    e = IndexOutOfBounds.
Proof.
  induction idx as [|i idx IH]; intros rr cc tr e; simpl.
  - discriminate.
  - unfold Run.bind, index, Run.emit.
    destruct (nth_error cy i); simpl; [|congruence].
    destruct (nth_error cx i); simpl; [|congruence].
    destruct (nth_error cy (i + 1)); simpl; [|congruence].
    destruct (nth_error cx (i + 1)); simpl; [|congruence].
    destruct (line z z0 z1 z2) as [lr lc]. apply IH.
Qed.


End PolygonPerimeterFacts.




(** ** Polygon perimeter: the claims *)

(** C5.  With [clip] set and no shape, [polygon_perimeter] raises the
    invalid-argument error before it has clipped, rounded or traced
    anything (its log of external calls is empty); with [clip] set and a
    shape supplied it does not raise that error. *)
Theorem clip_without_shape_fails
  (polygon_clip : list Q -> list Q -> Q -> Q -> Q -> Q -> list Q * list Q)
  (line : Z -> Z -> Z -> Z -> list Z * list Z) (cy cx : list Q) :
  Run.run (polygon_perimeter polygon_clip line cy cx None true) =
    ([], inl MustSpecifyClippingShape) /\
  forall sh,
    snd (Run.run (polygon_perimeter polygon_clip line cy cx (Some sh) true))
    <> inl MustSpecifyClippingShape.
Proof.
  split; [reflexivity|]. intros sh.
  unfold Run.run, polygon_perimeter, Run.bind, Run.ret, Run.emit. simpl.
  destruct (polygon_clip cy cx 0%Q 0%Q _ _) as [vy vx].
  match goal with
  | |- context [trace_segments ?l ?a ?b ?i ?r ?c ?t] =>
      pose proof (trace_segments_error l a b i r c t) as He;
      destruct (trace_segments l a b i r c t) as [tr' [e | [rr cc]]]
  end; simpl in *.
  - intros H. inversion H; subst. specialize (He _ eq_refl). discriminate.
  - discriminate.
Qed.




(** ** Compositor: reading and writing the buffer *)

Lemma set_nth_length {A : Type} (n : nat) (x : A) (l : list A) :
  length (set_nth n x l) = length l.
Proof.
  revert n. induction l as [|a l IH]; intros [|n]; simpl; auto.
Qed.

Lemma nth_set_nth_same {A : Type} (n : nat) (x d : A) (l : list A) :
  (n < length l)%nat -> nth n (set_nth n x l) d = x.
Proof.
  revert n. induction l as [|a l IH]; intros [|n] H; simpl in *; try lia; auto.
  apply IH. lia.
Qed.

Lemma nth_set_nth_other {A : Type} (n m : nat) (x d : A) (l : list A) :
  n <> m -> nth m (set_nth n x l) d = nth m l d.
Proof.
  revert n m. induction l as [|a l IH]; intros [|n] [|m] H; simpl; auto.
  congruence.
Qed.

Lemma set_nth_same_value {A : Type} (n : nat) (d : A) (l : list A) :
  set_nth n (nth n l d) l = l.
Proof.
  revert n. induction l as [|a l IH]; intros [|n]; simpl; auto.
  now rewrite IH.
Qed.

Lemma read_write_same (d : buffer) (r c : Z) (v : pixel) :
  in_range d r c -> read (write d r c v) r c = v.
Proof.
  intros (Hr & Hc & Hr' & Hc'). unfold read, write.
  rewrite nth_set_nth_same by exact Hr'.
  now rewrite nth_set_nth_same by exact Hc'.
Qed.

Lemma read_write_other (d : buffer) (r c r' c' : Z) (v : pixel) :
  0 <= r -> 0 <= c -> 0 <= r' -> 0 <= c' -> (r, c) <> (r', c') ->
  read (write d r c v) r' c' = read d r' c'.
Proof.
  intros Hr Hc Hr' Hc' Hne. unfold read, write.
  destruct (Z.eq_dec r r') as [-> | Hrr].
  - destruct (Nat.lt_ge_cases (Z.to_nat r') (length d)) as [Hlt | Hge].
    + rewrite nth_set_nth_same by exact Hlt.
      apply nth_set_nth_other. intros E.
      apply Hne. f_equal. lia.
    + rewrite (nth_overflow (set_nth _ _ d)) by (rewrite set_nth_length; lia).
      now rewrite (nth_overflow d) by lia.
  - rewrite nth_set_nth_other by lia. reflexivity.
Qed.

Lemma write_read (d : buffer) (r c : Z) : write d r c (read d r c) = d.
Proof.
  unfold read, write. now rewrite !set_nth_same_value.
Qed.

Lemma in_range_write (d : buffer) (r c r' c' : Z) (v : pixel) :
  in_range d r' c' -> in_range (write d r c v) r' c'.
Proof.
  intros (Hr & Hc & Hr' & Hc'). unfold in_range, write.
  rewrite set_nth_length. repeat split; try assumption.
  destruct (Nat.eq_dec (Z.to_nat r) (Z.to_nat r')) as [E | E].
  - rewrite E, nth_set_nth_same by exact Hr'. now rewrite set_nth_length.
  - now rewrite nth_set_nth_other by exact E.
Qed.

Lemma in_range_store_all (ws : list (Z * Z * pixel)) :
  forall d r c, in_range d r c -> in_range (store_all d ws) r c.
Proof.
  unfold store_all.
  induction ws as [|w ws IH]; intros d r c H; simpl; [exact H|].
  apply IH. now apply in_range_write.
Qed.

(** Stores at other non-negative coordinates leave a pixel as it is. *)
Lemma store_all_frame (ws : list (Z * Z * pixel)) :
  forall d r c,
    0 <= r -> 0 <= c ->
    (forall w, In w ws -> 0 <= fst (fst w) /\ 0 <= snd (fst w)) ->
    ~ In (r, c) (map fst ws) ->
    read (store_all d ws) r c = read d r c.
Proof.
  unfold store_all.
  induction ws as [|w ws IH]; intros d r c Hr Hc Hpos Hnin; simpl; [reflexivity|].
  rewrite IH; auto.
  - destruct (Hpos w (or_introl eq_refl)) as [H1 H2].
    apply read_write_other; auto.
    intros E. apply Hnin. left. rewrite <- E. now destruct w as [[a b] v].
  - intros w' Hw'. apply Hpos. now right.
  - intros H. apply Hnin. now right.
Qed.

(** Of the stores to one coordinate the last one stays. *)
Lemma store_all_last (ws1 ws2 : list (Z * Z * pixel)) (d : buffer)
  (r c : Z) (v : pixel) :
  in_range d r c ->
  (forall w, In w ws2 -> 0 <= fst (fst w) /\ 0 <= snd (fst w)) ->
  ~ In (r, c) (map fst ws2) ->
  read (store_all d (ws1 ++ (r, c, v) :: ws2)) r c = v.
Proof.
  intros Hin Hpos Hnin. unfold store_all. rewrite fold_left_app. simpl.
  fold (store_all d ws1).
  fold (store_all (write (store_all d ws1) r c v) ws2).
  destruct Hin as (Hr & Hc & Hrest).
  rewrite store_all_frame by assumption.
  apply read_write_same. apply in_range_store_all.
  unfold in_range. tauto.
Qed.

(** ** Compositor: what a call stores *)

Lemma view_facts (img : ndarray) :
  let view := if Nat.eqb (ndim img) 2 then newaxis img else img in
  data view = data img /\ extent (shape view) = extent (shape img) /\
  last_dim (shape view) = channels (shape img).
Proof. destruct img as [[m n | m n d] dat]; repeat split. Qed.

Lemma map2_blend (px color : pixel) (a : Qc) :
  map2 Qcplus (map (fun v => (v * (1 - a))%Qc) px)
              (map (fun c => (c * a)%Qc) color) = blend px color a.
Proof.
  unfold blend. revert color.
  induction px as [|v px IH]; intros [|c color]; simpl; auto.
  now rewrite IH.
Qed.

Lemma writes_form (d : buffer) (color : pixel) (kept : list (Z * Z * Qc)) :
  let rr := map (fun p : Z * Z * Qc => fst (fst p)) kept in
  let cc := map (fun p : Z * Z * Qc => snd (fst p)) kept in
  let alpha := map snd kept in
  combine (combine rr cc)
    (map2 (map2 Qcplus)
       (map2 (fun px a => map (fun v => (v * (1 - a))%Qc) px)
             (gather d rr cc) alpha)
       (map (fun a => map (fun c => (c * a)%Qc) color) alpha))
  = map (blend_entry d color) kept.
Proof.
  unfold gather. induction kept as [|[[r c] a] kept IH]; simpl; [reflexivity|].
  simpl in IH. rewrite IH. unfold blend_entry at 2; simpl.
  now rewrite map2_blend.
Qed.

Lemma set_color_rejects (img : ndarray) (rc : list Z * list Z)
  (color : list Qc) (alpha : alpha_arg) :
  length color <> channels (shape img) ->
  set_color img rc color alpha = (inl ColorShapeMismatch, img).
Proof.
  intros H. unfold set_color. destruct rc as [rr cc].
  destruct (view_facts img) as (_ & _ & Hd). cbv zeta in Hd. rewrite Hd.
  destruct (Nat.eqb_spec (channels (shape img)) (length color)); [congruence|].
  reflexivity.
Qed.

Lemma set_color_run (img : ndarray) (rc : list Z * list Z)
  (color : list Qc) (alpha : alpha_arg) :
  length color = channels (shape img) ->
  set_color img rc color alpha =
  (inr tt,
   mk_ndarray (shape img)
     (store_all (data img)
        (map (blend_entry (data img) color) (survivors img rc alpha)))).
Proof.
  intros H. unfold set_color, survivors. destruct rc as [rr cc].
  destruct (view_facts img) as (Hdat & Hext & Hd). cbv zeta in Hdat, Hext, Hd.
  rewrite Hd, Hext, Hdat, <- H, Nat.eqb_refl. simpl negb. cbv iota.
  unfold _coords_inside_image_val, scatter. cbv zeta. simpl fst; simpl snd.
  now rewrite writes_form.
Qed.

Lemma survivors_inside (img : ndarray) (rc : list Z * list Z)
  (alpha : alpha_arg) (k : Z * Z * Qc) :
  In k (survivors img rc alpha) ->
  addressed img rc (fst (fst k)) (snd (fst k)).
Proof.
  unfold survivors, addressed, coords. rewrite filter_In. intros [H1 H2].
  split; [|exact H2]. destruct k as [[r c] a]. simpl.
  now apply in_combine_l in H1.
Qed.

Lemma inside_image_nonneg (s : Z * Z) (r c : Z) :
  inside_image s r c = true -> 0 <= r /\ 0 <= c.
Proof. unfold inside_image. lia. Qed.

Lemma stores_nonneg (img : ndarray) (rc : list Z * list Z)
  (alpha : alpha_arg) (color : pixel) (l : list (Z * Z * Qc)) :
  (forall k, In k l -> In k (survivors img rc alpha)) ->
  forall w, In w (map (blend_entry (data img) color) l) ->
            0 <= fst (fst w) /\ 0 <= snd (fst w).
Proof.
  intros Hl w Hw. apply in_map_iff in Hw as (k & <- & Hk).
  apply Hl, survivors_inside in Hk. destruct Hk as [_ Hk].
  now apply inside_image_nonneg in Hk.
Qed.

Lemma stores_coords (d : buffer) (color : pixel) (l : list (Z * Z * Qc)) :
  map fst (map (blend_entry d color) l) = map fst l.
Proof. rewrite map_map. reflexivity. Qed.

(** In a well-formed image an in-bounds coordinate indexes the buffer, at a
    pixel with one value per channel. *)
Lemma wf_in_range (img : ndarray) (r c : Z) :
  wf img -> inside_image (extent (shape img)) r c = true ->
  in_range (data img) r c /\
  length (read (data img) r c) = channels (shape img).
Proof.
  intros [Hrows Hall] Hin. unfold inside_image in Hin.
  assert (Hr : (Z.to_nat r < length (data img))%nat) by lia.
  rewrite Forall_forall in Hall.
  pose proof (Hall (nth (Z.to_nat r) (data img) []) (nth_In _ _ Hr)) as Hrow.
  cbv beta in Hrow. destruct Hrow as [Hcols Hpx].
  change (Z.of_nat (length (nth (Z.to_nat r) (data img) [])) =
          snd (extent (shape img))) in Hcols.
  assert (Hc : (Z.to_nat c < length (nth (Z.to_nat r) (data img) []))%nat)
    by lia.
  rewrite Forall_forall in Hpx.
  split.
  - unfold in_range. repeat split; try lia.
  - unfold read. apply Hpx, nth_In, Hc.
Qed.

Lemma last_occurrence {B : Type} (ws : list (Z * Z * B)) (p : Z * Z) :
  In p (map fst ws) ->
  exists ws1 v ws2, ws = ws1 ++ (p, v) :: ws2 /\ ~ In p (map fst ws2).
Proof.
  induction ws as [|w ws IH]; simpl; [tauto|]. intros H.
  assert (Hdec : forall x y : Z * Z, {x = y} + {x <> y})
    by (decide equality; apply Z.eq_dec).
  destruct (in_dec Hdec p (map fst ws)) as [Hin | Hnin].
  - destruct (IH Hin) as (ws1 & v & ws2 & -> & Hn).
    exists (w :: ws1), v, ws2. split; [reflexivity | exact Hn].
  - destruct H as [E | H]; [|contradiction].
    exists [], (snd w), ws. split; [|exact Hnin].
    destruct w as [q v]. simpl in *. now subst.
Qed.

Lemma blend_opaque (px color : pixel) :
  length px = length color -> blend px color (1 * 1)%Qc = color.
Proof.
  unfold blend. revert color.
  induction px as [|v px IH]; intros [|c color] H; simpl in *;
    try discriminate; [reflexivity|].
  f_equal; [ring | apply IH; lia].
Qed.


Lemma entries_scalar (rr cc : list Z) (a : Qc) :
  combine (combine rr cc) (map (fun _ => a) rr) =
  map (fun p => (p, a)) (combine rr cc).
Proof.
  revert cc. induction rr as [|r rr IH]; intros [|c cc]; simpl; auto.
  now rewrite IH.
Qed.

Lemma store_all_unchanged (ws : list (Z * Z * pixel)) (d : buffer) :
  (forall w, In w ws -> snd w = read d (fst (fst w)) (snd (fst w))) ->
  store_all d ws = d.
Proof.
  unfold store_all. induction ws as [|w ws IH]; intros H; simpl; [reflexivity|].
  rewrite (H w (or_introl eq_refl)), write_read. apply IH.
  intros w' Hw'. apply H. now right.
Qed.


(** ** Compositor: the example of the docstring *)

(** [set_color(img, line(1, 1, 20, 20), 1)] on a 10 x 10 zero image; the
    diagonal is traced by the sample rasterizer. *)
Example set_color_docstring :
  map (map (map this))
      (data (snd (set_color
                    (mk_ndarray (Dims2 10 10) (repeat (repeat [0%Qc] 10) 10))
                    (walk_line 1 1 20 20) [1%Qc] (Scalar 1%Qc)))) =
  map (map (fun z => [inject_Z z]))
  [[0; 0; 0; 0; 0; 0; 0; 0; 0; 0];
   [0; 1; 0; 0; 0; 0; 0; 0; 0; 0];
   [0; 0; 1; 0; 0; 0; 0; 0; 0; 0];
   [0; 0; 0; 1; 0; 0; 0; 0; 0; 0];
   [0; 0; 0; 0; 1; 0; 0; 0; 0; 0];
   [0; 0; 0; 0; 0; 1; 0; 0; 0; 0];
   [0; 0; 0; 0; 0; 0; 1; 0; 0; 0];
   [0; 0; 0; 0; 0; 0; 0; 1; 0; 0];
   [0; 0; 0; 0; 0; 0; 0; 0; 1; 0];
   [0; 0; 0; 0; 0; 0; 0; 0; 0; 1]].
Proof. vm_compute. reflexivity. Qed.

(** ** Compositor: the claims *)

(** C6.  When the length of the colour vector differs from the channel
    count of the image (one for a 2-D image), [set_color] raises the
    shape-mismatch error and the image is left exactly as it was. *)
Theorem set_color_shape_mismatch (img : ndarray) (rc : list Z * list Z)
  (color : list Qc) (alpha : alpha_arg)
  (H : length color <> channels (shape img)) :
  set_color img rc color alpha = (inl ColorShapeMismatch, img).
Proof.
  unfold set_color. destruct rc as [rr cc].
  destruct (view_facts img) as (_ & _ & Hd). cbv zeta in Hd. rewrite Hd.
  destruct (Nat.eqb_spec (channels (shape img)) (length color)) as [E | E].
  - exfalso. apply H. now symmetry.
  - reflexivity.
Qed.

Lemma set_color_shape_mismatch_witness :
  length [1%Qc; 1%Qc] <> channels (Dims2 1 1) /\
  set_color (mk_ndarray (Dims2 1 1) [[[0%Qc]]]) ([0], [0]) [1%Qc; 1%Qc]
            (Scalar 1%Qc) =
  (inl ColorShapeMismatch, mk_ndarray (Dims2 1 1) [[[0%Qc]]]).
Proof.
  split; [simpl; lia|].
  apply (set_color_shape_mismatch (mk_ndarray (Dims2 1 1) [[[0%Qc]]])).
  simpl; lia.
Defined.








(** * Further properties *)

(** ** Ellipse: membership for every shape argument *)

Lemma ellipse_In (r c ry rx : Q) (shape : option (Z * Z)) (row col : Z) :
  In (row, col) (coords (ellipse r c ry rx shape)) <->
  (0 < ry)%Q /\ (0 < rx)%Q /\ inside_ellipse r c ry rx row col /\
  within shape row col.
Proof.
  destruct shape as [sh|]; unfold ellipse, within; cbn [fst snd];
    rewrite raster_In; split.
  - intros (Hr & Hc & Hy & Hx & H).
    assert (Hr' : Qceiling (r - ry) <= row <= Qfloor (r + ry)) by lia.
    assert (Hc' : Qceiling (c - rx) <= col <= Qfloor (c + rx)) by lia.
    split; [exact (box_radius_positive _ _ _ Hr' Hy)|].
    split; [exact (box_radius_positive _ _ _ Hc' Hx)|].
    split; [exact H | lia].
  - intros (Hy & Hx & H & Hw).
    pose proof (inside_ellipse_box _ _ _ _ _ _ Hy Hx H) as Hb.
    split; [lia|]. split; [lia|].
    split; [lra|]. split; [lra | exact H].
  - intros (Hr & Hc & Hy & Hx & H).
    split; [exact (box_radius_positive _ _ _ Hr Hy)|].
    split; [exact (box_radius_positive _ _ _ Hc Hx)|].
    split; [exact H | exact I].
  - intros (Hy & Hx & H & _).
    pose proof (inside_ellipse_box _ _ _ _ _ _ Hy Hx H) as Hb.
    split; [lia|]. split; [lia|].
    split; [lra|]. split; [lra | exact H].
Qed.

Lemma ellipse_length (r c ry rx : Q) (shape : option (Z * Z)) :
  length (fst (ellipse r c ry rx shape)) =
  length (snd (ellipse r c ry rx shape)).
Proof.
  destruct shape as [sh|]; unfold ellipse; simpl fst; simpl snd;
    apply raster_length.
Qed.

Lemma coords_nil (rr cc : list Z) :
  length rr = length cc -> coords (rr, cc) = [] -> (rr, cc) = ([], []).
Proof.
  destruct rr, cc; simpl; try discriminate; reflexivity.
Qed.

Lemma ellipse_empty (r c ry rx : Q) (shape : option (Z * Z)) :
  (forall row col, ~ In (row, col) (coords (ellipse r c ry rx shape))) ->
  ellipse r c ry rx shape = ([], []).
Proof.
  intros H. pose proof (ellipse_length r c ry rx shape) as Hl.
  destruct (ellipse r c ry rx shape) as [rr cc] eqn:E. simpl in Hl.
  apply coords_nil; [exact Hl|].
  destruct (coords (rr, cc)) as [|[a b] l] eqn:Ec; [reflexivity|].
  exfalso. apply (H a b). now left.
Qed.

(** ** Ellipse: order of the output *)

Lemma StronglySorted_app {A : Type} (R : A -> A -> Prop) (l1 l2 : list A) :
  StronglySorted R l1 -> StronglySorted R l2 ->
  (forall x y, In x l1 -> In y l2 -> R x y) ->
  StronglySorted R (l1 ++ l2).
Proof.
  induction l1 as [|a l1 IH]; intros H1 H2 H12; simpl; [exact H2|].
  apply StronglySorted_inv in H1 as [H1 Ha]. constructor.
  - apply IH; auto. intros x y Hx Hy. apply H12; [now right | exact Hy].
  - apply Forall_app. split; [exact Ha|].
    apply Forall_forall. intros y Hy. apply H12; [now left | exact Hy].
Qed.

Lemma StronglySorted_map {A B : Type} (R : A -> A -> Prop)
  (S : B -> B -> Prop) (f : A -> B) (l : list A) :
  (forall x y, R x y -> S (f x) (f y)) ->
  StronglySorted R l -> StronglySorted S (map f l).
Proof.
  intros Hf. induction 1 as [|a l Hl IH Ha]; simpl; constructor; auto.
  apply Forall_map. revert Ha. apply Forall_impl. intros b. apply Hf.
Qed.

Lemma nonzero_row_sorted (row : list bool) (j0 : Z) :
  StronglySorted Z.lt (Np.nonzero_row j0 row).
Proof.
  revert j0. induction row as [|b row IH]; intros j0; simpl; [constructor|].
  destruct b; simpl; [|apply IH]. constructor; [apply IH|].
  apply Forall_forall. intros j Hj. apply nonzero_row_lower in Hj. lia.
Qed.

Lemma nonzero_from_sorted (m : list (list bool)) (i0 : Z) :
  StronglySorted lex_lt (Np.nonzero_from i0 m).
Proof.
  revert i0. induction m as [|row m IH]; intros i0; simpl; [constructor|].
  apply StronglySorted_app.
  - apply (StronglySorted_map Z.lt); [|apply nonzero_row_sorted].
    intros x y Hxy. right. simpl. split; [reflexivity | exact Hxy].
  - apply IH.
  - intros x [i j] Hx Hy. apply in_map_iff in Hx as (k & <- & _).
    apply nonzero_from_lower in Hy. left. simpl. lia.
Qed.

Lemma raster_sorted (ul0 ul1 lr0 lr1 : Z) (r c ry rx : Q) :
  StronglySorted lex_lt
     (coords
        (let '(rr, cc) :=
           _ellipse_in_shape (lr0 - ul0 + 1, lr1 - ul1 + 1)
             (r - inject_Z ul0, c - inject_Z ul1)%Q (ry, rx) in
         (map (fun i => i + ul0) rr, map (fun j => j + ul1) cc))).
Proof.
  unfold _ellipse_in_shape, Np.nonzero; simpl fst; simpl snd.
  match goal with
  | |- context [split ?l] =>
      pose proof (coords_split l) as Hs; destruct (split l) as [rr cc] eqn:E
  end.
  rewrite coords_map, Hs.
  apply (StronglySorted_map lex_lt); [|apply nonzero_from_sorted].
  intros [a b] [a' b']. unfold lex_lt. simpl. lia.
Qed.

(** X1.  Whatever the shape argument, [ellipse] returns two arrays of equal
    length that list the pixels in row-major order: rows ascending, and
    columns ascending within a row. *)
Theorem ellipse_row_major (r c yradius xradius : Q)
  (shape : option (Z * Z)) :
  length (fst (ellipse r c yradius xradius shape)) =
  length (snd (ellipse r c yradius xradius shape)) /\
  StronglySorted lex_lt (coords (ellipse r c yradius xradius shape)).
Proof.
  split; [apply ellipse_length|].
  destruct shape as [sh|]; unfold ellipse; cbn [fst snd]; apply raster_sorted.
Qed.

(** ** Ellipse: translation *)







(** ** Ellipse: what the output contains *)













(** X7.  An ellipse that lies wholly above, left of, below or right of the
    shape gives two empty arrays. *)
Theorem ellipse_outside_shape_empty (r c yradius xradius : Q) (sh : Z * Z)
  (H : (r + yradius < 0)%Q \/ (c + xradius < 0)%Q \/
       (inject_Z (fst sh) <= r - yradius)%Q \/
       (inject_Z (snd sh) <= c - xradius)%Q) :
  ellipse r c yradius xradius (Some sh) = ([], []).
Proof.
  apply ellipse_empty. intros row col Hin.
  apply ellipse_In in Hin as (Hy & Hx & Hi & Hr & Hc).
  pose proof (inside_ellipse_box _ _ _ _ _ _ Hy Hx Hi) as [Hbr Hbc].
  pose proof (Qfloor_le (r + yradius)) as F1.
  pose proof (Qfloor_le (c + xradius)) as F2.
  pose proof (Qle_ceiling (r - yradius)) as C1.
  pose proof (Qle_ceiling (c - xradius)) as C2.
  rewrite !Zle_Qle in Hbr, Hbc.
  destruct Hr as [Hr1 Hr2], Hc as [Hc1 Hc2].
  rewrite Zle_Qle in Hr1, Hc1. rewrite Zlt_Qlt in Hr2, Hc2.
  change (inject_Z 0) with 0%Q in *.
  lra.
Qed.

Lemma ellipse_outside_shape_empty_witness :
  ((-5 # 1) + 2 < 0)%Q /\ ellipse (-5 # 1) 3 2 2 (Some (10, 10)) = ([], []).
Proof.
  split; [reflexivity|].
  apply (ellipse_outside_shape_empty (-5 # 1) 3 2 2 (10, 10)).
  left. reflexivity.
Defined.



(** ** Polygon perimeter: the run of a call *)

Lemma trace_segments_run (line : Z -> Z -> Z -> Z -> list Z * list Z)
  (cy cx : list Z) :
  length cy = length cx ->
  forall k a rr cc tr,
    (a + k <= length cy - 1)%nat ->
    trace_segments line cy cx (seq a k) rr cc tr =
    (tr ++ map (traced_call cy cx) (seq a k),
     inr (rr ++ flat_map (fun i => fst (segment line cy cx i)) (seq a k),
          cc ++ flat_map (fun i => snd (segment line cy cx i)) (seq a k))).
Proof.
  intros Hlen. induction k as [|k IH]; intros a rr cc tr Ha.
  - simpl. now rewrite !app_nil_r.
  - simpl. unfold Run.bind, index, Run.emit.
    rewrite (nth_error_nth' cy 0), (nth_error_nth' cx 0) by lia. simpl.
    rewrite (nth_error_nth' cy 0), (nth_error_nth' cx 0) by lia. simpl.
    unfold segment at 1 3. unfold traced_call at 1.
    destruct (line (nth a cy 0) (nth a cx 0)
                   (nth (a + 1) cy 0) (nth (a + 1) cx 0)) as [lr lc].
    rewrite IH by lia. simpl. now rewrite <- !app_assoc.
Qed.

Lemma fold_min_spec (l : list Q) (x : Q) :
  In (fold_left Qmin l x) (x :: l) /\
  Forall (fun v => (fold_left Qmin l x <= v)%Q) (x :: l).
Proof.
  revert x. induction l as [|a l IH]; intros x; simpl fold_left.
  - split; [now left|]. constructor; [apply Qle_refl | constructor].
  - destruct (IH (Qmin x a)) as [Hin Hall].
    apply Forall_cons_iff in Hall as [Hm Hl].
    split.
    + destruct Hin as [E | Hin]; [|right; now right].
      rewrite <- E. unfold Qmin, GenericMinMax.gmin.
      destruct (x ?= a)%Q; [now left | now left | right; now left].
    + constructor; [|constructor; [|exact Hl]].
      * eapply Qle_trans; [exact Hm | apply Q.le_min_l].
      * eapply Qle_trans; [exact Hm | apply Q.le_min_r].
Qed.

Lemma fold_max_spec (l : list Q) (x : Q) :
  In (fold_left Qmax l x) (x :: l) /\
  Forall (fun v => (v <= fold_left Qmax l x)%Q) (x :: l).
Proof.
  revert x. induction l as [|a l IH]; intros x; simpl fold_left.
  - split; [now left|]. constructor; [apply Qle_refl | constructor].
  - destruct (IH (Qmax x a)) as [Hin Hall].
    apply Forall_cons_iff in Hall as [Hm Hl].
    split.
    + destruct Hin as [E | Hin]; [|right; now right].
      rewrite <- E. unfold Qmax, GenericMinMax.gmax.
      destruct (x ?= a)%Q; [now left | right; now left | now left].
    + constructor; [|constructor; [|exact Hl]].
      * eapply Qle_trans; [apply Q.le_max_l | exact Hm].
      * eapply Qle_trans; [apply Q.le_max_r | exact Hm].
Qed.

Lemma inside_filter (rr cc : list Z) (sh : Z * Z) :
  length (fst (_coords_inside_image rr cc sh)) =
  length (snd (_coords_inside_image rr cc sh)) /\
  Forall (fun p => inside_image sh (fst p) (snd p) = true)
         (coords (_coords_inside_image rr cc sh)).
Proof.
  unfold _coords_inside_image, coords. cbn [fst snd].
  set (kept := filter _ (combine rr cc)).
  split; [now rewrite !length_map|].
  assert (E : forall l : list (Z * Z), combine (map fst l) (map snd l) = l).
  { induction l as [|[a b] l IH]; simpl; [reflexivity | now rewrite IH]. }
  rewrite E. apply Forall_forall. intros p Hp.
  apply filter_In in Hp. tauto.
Qed.

(** ** Polygon perimeter: further properties *)

(** X9.  An unclipped call on an empty vertex array fails in [np.min] with
    the zero-size-reduction error, whichever of [cy] and [cx] is empty and
    whatever the shape is, before the clipper is called. *)
Theorem perimeter_empty_vertices
  (polygon_clip : list Q -> list Q -> Q -> Q -> Q -> Q -> list Q * list Q)
  (line : Z -> Z -> Z -> Z -> list Z * list Z)
  (cy cx : list Q) (shape : option (Z * Z)) :
  Run.run (polygon_perimeter polygon_clip line [] cx shape false) =
    ([], inl ZeroSizeReduction) /\
  Run.run (polygon_perimeter polygon_clip line cy [] shape false) =
    ([], inl ZeroSizeReduction).
Proof.
  split; [reflexivity|]. destruct cy; reflexivity.
Qed.

(** X10.  The box handed to the clipper by an unclipped call is the tight
    bounding box of the vertices: computing it calls no collaborator, its
    corners are coordinates of vertices, and every vertex lies between
    them. *)
Theorem bounding_box_tight (y x : Q) (cy cx : list Q) :
  exists min_y min_x max_y max_x,
    Run.run (bounding_box (y :: cy) (x :: cx)) =
      ([], inr (min_y, min_x, max_y, max_x)) /\
    (In min_y (y :: cy) /\ In max_y (y :: cy) /\
     Forall (fun v => (min_y <= v <= max_y)%Q) (y :: cy)) /\
    (In min_x (x :: cx) /\ In max_x (x :: cx) /\
     Forall (fun v => (min_x <= v <= max_x)%Q) (x :: cx)).
Proof.
  exists (fold_left Qmin cy y), (fold_left Qmin cx x),
         (fold_left Qmax cy y), (fold_left Qmax cx x).
  split; [reflexivity|].
  destruct (fold_min_spec cy y) as [I1 F1], (fold_max_spec cy y) as [I2 F2],
           (fold_min_spec cx x) as [I3 F3], (fold_max_spec cx x) as [I4 F4].
  rewrite Forall_forall in F1, F2, F3, F4.
  split; (split; [assumption|]; split; [assumption|]);
    apply Forall_forall; intros v Hv; split; auto.
Qed.

(** X11.  With a shape supplied, a call that succeeds returns two arrays of
    equal length whose pixels all lie inside the shape, whatever the
    clipper and the line rasterizer return and whether or not [clip] is
    set. *)
Theorem perimeter_inside_shape
  (polygon_clip : list Q -> list Q -> Q -> Q -> Q -> Q -> list Q * list Q)
  (line : Z -> Z -> Z -> Z -> list Z * list Z)
  (cy cx : list Q) (sh : Z * Z) (clip : bool)
  (log : list event) (rr cc : list Z)
  (Hrun : Run.run (polygon_perimeter polygon_clip line cy cx (Some sh) clip)
          = (log, inr (rr, cc))) :
  length rr = length cc /\
  Forall (fun p => 0 <= fst p < fst sh /\ 0 <= snd p < snd sh)
         (coords (rr, cc)).
Proof.
  unfold Run.run, polygon_perimeter in Hrun. unfold Run.bind at 1 in Hrun.
  destruct ((if clip
             then Run.ret (0, 0, inject_Z (fst sh - 1),
                           inject_Z (snd sh - 1))%Q
             else bounding_box cy cx) [])
    as [tr [e | [[[r0 c0] r1] c1]]]; [discriminate|].
  unfold Run.bind, Run.emit, Run.ret in Hrun. simpl in Hrun.
  destruct (polygon_clip cy cx r0 c0 r1 c1) as [vy vx].
  destruct (trace_segments _ _ _ _ _ _ _) as [tr' [e | [rr0 cc0]]];
    [discriminate|].
  injection Hrun as Hlog Hr Hc.
  destruct (inside_filter rr0 cc0 sh) as [Hl Hf].
  unfold _coords_inside_image in Hl, Hf. cbn [fst snd] in Hl, Hf.
  rewrite Hr, Hc in Hl, Hf. split; [exact Hl|].
  revert Hf. apply Forall_impl. intros p. unfold inside_image. lia.
Qed.

Lemma perimeter_inside_shape_witness :
  let out := ([0; 0; 0; 1; 2; 2; 1; 0], [0; 1; 2; 2; 1; 0; 0; 0]) in
  Run.run (polygon_perimeter closing_clip walk_line
             [0; 0; 3]%Q [0; 3; 0]%Q (Some (3, 3)) false)
  = ([Clipped (0, 0, 3, 3)%Q; Rounded; Rounded;
      Traced 0 0 0 3; Traced 0 3 3 0; Traced 3 0 0 0], inr out) /\
  length (fst out) = length (snd out) /\
  Forall (fun p => 0 <= fst p < fst (3, 3) /\ 0 <= snd p < snd (3, 3))
         (coords out).
Proof.
  intros out.
  assert (H : Run.run (polygon_perimeter closing_clip walk_line
                         [0; 0; 3]%Q [0; 3; 0]%Q (Some (3, 3)) false)
              = ([Clipped (0, 0, 3, 3)%Q; Rounded; Rounded;
                  Traced 0 0 0 3; Traced 0 3 3 0; Traced 3 0 0 0], inr out))
    by (vm_compute; reflexivity).
  split; [exact H|].
  exact (perimeter_inside_shape closing_clip walk_line _ _ _ _ _ _ _ H).
Defined.

(** X12.  A clipped call asks the clipper for the box
    (0, 0, shape[0]-1, shape[1]-1) whatever the vertices are.  When the
    clipper returns parallel arrays the call succeeds; [line] is called
    once for each pair of consecutive rounded vertices, in vertex order,
    and the output is what the in-shape filter keeps of the segments
    concatenated in that order. *)
Theorem perimeter_clipped_run
  (polygon_clip : list Q -> list Q -> Q -> Q -> Q -> Q -> list Q * list Q)
  (line : Z -> Z -> Z -> Z -> list Z * list Z)
  (cy cx vy vx : list Q) (sh : Z * Z)
  (Hclip : polygon_clip cy cx 0%Q 0%Q (inject_Z (fst sh - 1))
                        (inject_Z (snd sh - 1)) = (vy, vx))
  (Hpar : length vy = length vx) :
  let ry := map np_round vy in
  let rx := map np_round vx in
  let edges := seq 0 (length vy - 1) in
  Run.run (polygon_perimeter polygon_clip line cy cx (Some sh) true) =
  ([Clipped (0, 0, inject_Z (fst sh - 1), inject_Z (snd sh - 1))%Q;
    Rounded; Rounded] ++ map (traced_call ry rx) edges,
   inr (_coords_inside_image
          (flat_map (fun i => fst (segment line ry rx i)) edges)
          (flat_map (fun i => snd (segment line ry rx i)) edges) sh)).
Proof.
  intros ry rx edges.
  unfold Run.run, polygon_perimeter, Run.bind, Run.ret, Run.emit. simpl app.
  cbv iota beta. rewrite Hclip. cbv iota beta.
  rewrite (trace_segments_run line ry rx)
    by (unfold ry, rx; rewrite ?length_map; auto; lia).
  unfold ry at 1. rewrite length_map. reflexivity.
Qed.

Lemma perimeter_clipped_run_witness :
  let ry := [0; 0; 3; 0] in
  let rx := [0; 3; 0; 0] in
  Run.run (polygon_perimeter closing_clip walk_line
             [0; 0; 3]%Q [0; 3; 0]%Q (Some (4, 4)) true) =
  ([Clipped (0, 0, inject_Z (4 - 1), inject_Z (4 - 1))%Q; Rounded; Rounded]
     ++ map (traced_call ry rx) [0; 1; 2]%nat,
   inr (_coords_inside_image
          (flat_map (fun i => fst (segment walk_line ry rx i)) [0; 1; 2]%nat)
          (flat_map (fun i => snd (segment walk_line ry rx i)) [0; 1; 2]%nat)
          (4, 4))).
Proof.
  intros ry rx.
  exact (perimeter_clipped_run closing_clip walk_line
           [0; 0; 3]%Q [0; 3; 0]%Q [0; 0; 3; 0]%Q [0; 3; 0; 0]%Q (4, 4)
           eq_refl eq_refl).
Defined.

(** X13.  When the clipper returns fewer than two vertices (a polygon that does
    not meet the shape), a clipped call succeeds with two empty arrays and
    never calls the line rasterizer. *)
Theorem perimeter_clipped_away
  (polygon_clip : list Q -> list Q -> Q -> Q -> Q -> Q -> list Q * list Q)
  (line : Z -> Z -> Z -> Z -> list Z * list Z)
  (cy cx vy vx : list Q) (sh : Z * Z)
  (Hclip : polygon_clip cy cx 0%Q 0%Q (inject_Z (fst sh - 1))
                        (inject_Z (snd sh - 1)) = (vy, vx))
  (Hshort : (length vy <= 1)%nat) :
  Run.run (polygon_perimeter polygon_clip line cy cx (Some sh) true) =
  ([Clipped (0, 0, inject_Z (fst sh - 1), inject_Z (snd sh - 1))%Q;
    Rounded; Rounded],
   inr ([], [])).
Proof.
  unfold Run.run, polygon_perimeter, Run.bind, Run.ret, Run.emit. simpl app.
  cbv iota beta. rewrite Hclip. cbv iota beta. rewrite length_map.
  replace (length vy - 1)%nat with 0%nat by lia. reflexivity.
Qed.

Lemma perimeter_clipped_away_witness :
  Run.run (polygon_perimeter (fun _ _ _ _ _ _ => ([], [])) walk_line
             [20; 20; 30]%Q [20; 30; 20]%Q (Some (10, 10)) true) =
  ([Clipped (0, 0, inject_Z (10 - 1), inject_Z (10 - 1))%Q; Rounded; Rounded],
   inr ([], [])).
Proof.
  apply (perimeter_clipped_away (fun _ _ _ _ _ _ => ([], [])) walk_line
           [20; 20; 30]%Q [20; 30; 20]%Q [] [] (10, 10) eq_refl).
  simpl. lia.
Defined.

(** ** Compositor: invariants of the buffer *)

Lemma Forall_set_nth {A : Type} (P : A -> Prop) (n : nat) (x : A)
  (l : list A) :
  Forall P l -> ((n < length l)%nat -> P x) -> Forall P (set_nth n x l).
Proof.
  revert n. induction l as [|a l IH]; intros [|n] Hl Hx; simpl; auto.
  - apply Forall_cons_iff in Hl as [_ Hl]. constructor; [|exact Hl].
    apply Hx. simpl. lia.
  - apply Forall_cons_iff in Hl as [Ha Hl]. constructor; [exact Ha|].
    apply IH; [exact Hl|]. intros H. apply Hx. simpl. lia.
Qed.

Lemma blend_length (px color : pixel) (a : Qc) :
  length px = length color -> length (blend px color a) = length px.
Proof.
  unfold blend. revert color.
  induction px as [|v px IH]; intros [|c color] H; simpl in *;
    try discriminate; [reflexivity|].
  f_equal. apply IH. lia.
Qed.

Lemma write_wf (s : dims) (d : buffer) (r c : Z) (v : pixel) :
  wf (mk_ndarray s d) -> length v = channels s ->
  wf (mk_ndarray s (write d r c v)).
Proof.
  unfold wf; simpl. intros [Hrows Hall] Hv. unfold write. split.
  - now rewrite set_nth_length.
  - apply Forall_set_nth; [exact Hall|]. intros Hr.
    rewrite Forall_forall in Hall.
    destruct (Hall _ (nth_In d [] Hr)) as [Hcols Hpx].
    split; [now rewrite set_nth_length|].
    apply Forall_set_nth; [exact Hpx | intros _; exact Hv].
Qed.

Lemma store_all_wf (s : dims) (ws : list (Z * Z * pixel)) :
  forall d,
    wf (mk_ndarray s d) ->
    (forall w, In w ws -> length (snd w) = channels s) ->
    wf (mk_ndarray s (store_all d ws)).
Proof.
  unfold store_all.
  induction ws as [|w ws IH]; intros d Hwf Hws; simpl; [exact Hwf|].
  apply IH.
  - apply write_wf; [exact Hwf|]. apply Hws. now left.
  - intros w' Hw'. apply Hws. now right.
Qed.

Lemma set_color_wf (img : ndarray) (rc : list Z * list Z)
  (color : list Qc) (alpha : alpha_arg) :
  wf img -> wf (snd (set_color img rc color alpha)).
Proof.
  intros Hwf.
  destruct (Nat.eq_dec (length color) (channels (shape img))) as [E | E].
  - rewrite (set_color_run _ _ _ _ E). simpl.
    apply store_all_wf; [now destruct img|].
    intros w Hw. apply in_map_iff in Hw as (k & <- & Hk).
    apply survivors_inside in Hk. destruct Hk as [_ Hk].
    destruct (wf_in_range img _ _ Hwf Hk) as [_ Hlen].
    unfold blend_entry; simpl. rewrite blend_length; congruence.
  - now rewrite (set_color_rejects _ _ _ _ E).
Qed.

(** What a call leaves at a pixel: its original value when no surviving
    entry addresses it, and otherwise the blend of its original value with
    the alpha of one of the surviving entries that address it. *)
Lemma pixel_outcome (img : ndarray) (rc : list Z * list Z)
  (color : list Qc) (alpha : alpha_arg) (row col : Z) :
  wf img -> length color = channels (shape img) ->
  0 <= row -> 0 <= col ->
  (~ In (row, col) (map fst (survivors img rc alpha)) /\
   read (data (snd (set_color img rc color alpha))) row col =
   read (data img) row col) \/
  (exists k, In k (survivors img rc alpha) /\ fst k = (row, col) /\
     read (data (snd (set_color img rc color alpha))) row col =
     blend (read (data img) row col) color (snd k)).
Proof.
  intros Hwf Hcolor Hr Hc. rewrite (set_color_run _ _ _ _ Hcolor). simpl.
  set (ws := map (blend_entry (data img) color) (survivors img rc alpha)).
  assert (Hdec : forall x y : Z * Z, {x = y} + {x <> y})
    by (decide equality; apply Z.eq_dec).
  assert (Hpos : forall w, In w ws -> 0 <= fst (fst w) /\ 0 <= snd (fst w)).
  { apply (stores_nonneg img rc alpha). auto. }
  destruct (in_dec Hdec (row, col) (map fst (survivors img rc alpha)))
    as [Hin | Hnin].
  - right.
    assert (Hin' : In (row, col) (map fst ws))
      by (unfold ws; now rewrite stores_coords).
    destruct (last_occurrence ws (row, col) Hin')
      as (ws1 & v & ws2 & Hws & Hn2).
    apply in_map_iff in Hin as (k0 & Ek0 & Hk0).
    apply survivors_inside in Hk0. destruct Hk0 as [_ Hk0].
    rewrite Ek0 in Hk0. simpl in Hk0.
    destruct (wf_in_range img row col Hwf Hk0) as [Hrange _].
    assert (Hv : In (row, col, v) ws) by (rewrite Hws; apply in_elt).
    rewrite Hws, store_all_last; auto.
    + unfold ws in Hv. apply in_map_iff in Hv as (k & Ek & Hk).
      unfold blend_entry in Ek. injection Ek as E1 E2.
      exists k. split; [exact Hk|]. split; [exact E1|].
      rewrite <- E2, E1. reflexivity.
    + intros w Hw. apply Hpos. rewrite Hws. apply in_or_app.
      right. now right.
  - left. split; [exact Hnin|].
    apply store_all_frame; auto. unfold ws. now rewrite stores_coords.
Qed.

(** ** Compositor: further properties *)

(** X14.  [set_color] keeps the shape of the image, and a well-formed image
    stays well formed: the buffer keeps its extent and every pixel its
    channel count, whatever the coordinates, the colour and the alpha
    are. *)
Theorem set_color_keeps_shape (img : ndarray) (rc : list Z * list Z)
  (color : list Qc) (alpha : alpha_arg) (Hwf : wf img) :
  shape (snd (set_color img rc color alpha)) = shape img /\
  wf (snd (set_color img rc color alpha)).
Proof.
  split; [|now apply set_color_wf].
  destruct (Nat.eq_dec (length color) (channels (shape img))) as [E | E].
  - now rewrite (set_color_run _ _ _ _ E).
  - now rewrite (set_color_rejects _ _ _ _ E).
Qed.

Lemma set_color_keeps_shape_witness :
  let img := mk_ndarray (Dims3 1 2 2) [[[0%Qc; 0%Qc]; [1%Qc; 0%Qc]]] in
  let out := snd (set_color img ([0; 5; 0], [1; 7; 0]) [1%Qc; 1%Qc]
                            (PerCoord [Q2Qc (1 # 2); 1%Qc; Q2Qc (1 # 3)])) in
  wf img /\ shape out = shape img /\ wf out.
Proof.
  intros img out.
  assert (Hwf : wf img).
  { split; [reflexivity|]. repeat constructor. }
  split; [exact Hwf|].
  exact (set_color_keeps_shape img ([0; 5; 0], [1; 7; 0]) [1%Qc; 1%Qc]
           (PerCoord [Q2Qc (1 # 2); 1%Qc; Q2Qc (1 # 3)]) Hwf).
Defined.





Lemma opaque_read (img : ndarray) (rc : list Z * list Z) (color : list Qc)
  (row col : Z) :
  wf img -> length color = channels (shape img) ->
  addressed img rc row col ->
  read (data (snd (set_color img rc color (Scalar 1%Qc)))) row col = color.
Proof.
  intros Hwf Hcolor [Hin Hins].
  destruct (inside_image_nonneg _ _ _ Hins) as [Hr Hc].
  destruct (wf_in_range img row col Hwf Hins) as [_ Hlen].
  destruct (pixel_outcome img rc color (Scalar 1%Qc) row col
                          Hwf Hcolor Hr Hc)
    as [[Hn _] | (k & Hk & Ek & H)].
  - exfalso. apply Hn. apply in_map_iff.
    exists (row, col, (1 * 1)%Qc). split; [reflexivity|].
    unfold survivors, alpha_values. rewrite entries_scalar, filter_In.
    split; [|exact Hins]. apply in_map_iff. now exists (row, col).
  - rewrite H.
    assert (Hk1 : snd k = (1 * 1)%Qc).
    { revert Hk. unfold survivors, alpha_values.
      rewrite entries_scalar, filter_In, in_map_iff.
      intros [(p & <- & _) _]. reflexivity. }
    rewrite Hk1. apply blend_opaque. congruence.
Qed.

(** X17.  Painting opaquely is idempotent: on a well-formed image and with
    a matching colour, a second [set_color] call with alpha = 1 and the
    same coordinates and colour succeeds and leaves the image exactly as
    the first call left it. *)
Theorem set_color_opaque_idempotent (img : ndarray) (rc : list Z * list Z)
  (color : list Qc)
  (Hwf : wf img) (Hcolor : length color = channels (shape img)) :
  let once := snd (set_color img rc color (Scalar 1%Qc)) in
  set_color once rc color (Scalar 1%Qc) = (inr tt, once).
Proof.
  intros once.
  assert (Hshape : shape once = shape img).
  { unfold once. now rewrite (set_color_run _ _ _ _ Hcolor). }
  assert (Hwf1 : wf once) by (unfold once; now apply set_color_wf).
  assert (Hcolor1 : length color = channels (shape once))
    by (now rewrite Hshape).
  rewrite (set_color_run _ _ _ _ Hcolor1). f_equal.
  rewrite store_all_unchanged; [now destruct once|].
  intros w Hw. apply in_map_iff in Hw as (k & <- & Hk).
  unfold blend_entry; simpl.
  assert (Hk1 : snd k = (1 * 1)%Qc).
  { revert Hk. unfold survivors, alpha_values.
    rewrite entries_scalar, filter_In, in_map_iff.
    intros [(p & <- & _) _]. reflexivity. }
  apply survivors_inside in Hk. destruct Hk as [Hin Hins].
  destruct (wf_in_range once _ _ Hwf1 Hins) as [_ Hlen].
  rewrite Hk1, blend_opaque by congruence.
  symmetry. unfold once. apply opaque_read; [exact Hwf | exact Hcolor|].
  split; [exact Hin|]. now rewrite <- Hshape.
Qed.

Lemma set_color_opaque_idempotent_witness :
  let img := mk_ndarray (Dims3 1 2 2) [[[0%Qc; 0%Qc]; [1%Qc; 0%Qc]]] in
  let rc := ([0; 5; 0], [1; 7; 1]) in
  let color := [Q2Qc (1 # 2); 1%Qc] in
  let once := snd (set_color img rc color (Scalar 1%Qc)) in
  (wf img /\ length color = channels (shape img)) /\
  set_color once rc color (Scalar 1%Qc) = (inr tt, once).
Proof.
  intros img rc color once.
  assert (Hwf : wf img).
  { split; [reflexivity|]. repeat constructor. }
  split; [split; [exact Hwf | reflexivity]|].
  exact (set_color_opaque_idempotent img rc color Hwf eq_refl).
Defined.









(** ** Ellipse and compositor together *)

(** X20.  A shape that holds the whole box of the ellipse changes nothing:
    the call with that shape returns the arrays of the call without a
    shape, element for element. *)
Theorem ellipse_shape_large (r c yradius xradius : Q) (sh : Z * Z)
  (Hr0 : (0 <= r - yradius)%Q) (Hc0 : (0 <= c - xradius)%Q)
  (Hr1 : (r + yradius <= inject_Z (fst sh - 1))%Q)
  (Hc1 : (c + xradius <= inject_Z (snd sh - 1))%Q) :
  ellipse r c yradius xradius (Some sh) = ellipse r c yradius xradius None.
Proof.
  unfold ellipse; cbn [fst snd].
  pose proof (Qceiling_resp_le _ _ Hr0) as A1.
  pose proof (Qceiling_resp_le _ _ Hc0) as A2.
  pose proof (Qfloor_resp_le _ _ Hr1) as A3.
  pose proof (Qfloor_resp_le _ _ Hc1) as A4.
  rewrite Qfloor_Z in A3, A4.
  change (Qceiling 0) with 0 in A1, A2.
  rewrite !Z.max_l, !Z.min_l by lia. reflexivity.
Qed.

Lemma ellipse_shape_large_witness :
  ((0 <= 5 - 3)%Q /\ (0 <= 5 - 4)%Q /\
   (5 + 3 <= inject_Z 9)%Q /\ (5 + 4 <= inject_Z 9)%Q) /\
  ellipse 5 5 3 4 (Some (10, 10)) = ellipse 5 5 3 4 None.
Proof.
  split; [repeat split; discriminate|].
  apply (ellipse_shape_large 5 5 3 4 (10, 10)); discriminate.
Defined.


